(** * The optimizer stage of the Caide C++ inliner (src/optimizer.cpp)

    A shallow embedding of the orchestration code of [optimizer.cpp]:
    the reachability worklist of [OptimizerConsumer::HandleTranslationUnit],
    [OptimizerConsumer::getResult], [OptimizerFrontendAction::CreateASTConsumer],
    the [Optimizer] constructor and [Optimizer::doOptimize].

    Pointers ([Decl*], [FunctionDecl*]) are addresses in [N]; [std::set] and
    [std::unordered_set] are [gset]; [std::map] is [gmap]; [std::string] is
    [string]; a C++ [throw] is the [Throws] outcome of a small exception
    monad. *)

From stdpp Require Import gmap strings list fin_maps fin_sets.

Set Default Proof Using "Type".

(** ** Step 2 of [HandleTranslationUnit]: the reachability worklist *)

(** A [Decl*] is the address of an AST node, a number in [N];
    [std::set<Decl*>] orders them by address. [SourceInfo::uses] maps a
    declaration to the set of declarations it uses.

    The variables live across one iteration of the [while] loop. [uses] is
    part of the state since [srcInfo.uses[decl]] is [std::map::operator[]],
    which default-inserts a missing key. *)
Record State := mkState {
  queue : gset N;
  used : gset N;
  srcInfo_uses : gmap N (gset N)
}.

(** [*queue.begin()] of a [std::set<Decl*>]: the least address, if any. *)
Definition set_begin (q : gset N) : option N :=
  match elements q with
  | [] => None
  | x :: l => Some (foldr N.min x l)
  end.

(** [srcInfo.uses[decl]]: the mapped set, and the map after the access. *)
Definition index_uses (u : gmap N (gset N)) (d : N) : gset N * gmap N (gset N) :=
  match u !! d with
  | Some s => (s, u)
  | None => (∅, <[d := ∅]> u)
  end.

(** One iteration of the loop for the popped declaration [d]:
<<
    queue.erase(queue.begin());
    if (used.insert(decl).second)
        queue.insert(srcInfo.uses[decl].begin(), srcInfo.uses[decl].end());
>> *)
Definition loop_body (st : State) (d : N) : State :=
  let q := queue st ∖ {[d]} in
  if decide (d ∈ used st)
  then mkState q (used st) (srcInfo_uses st)
  else let '(s, u) := index_uses (srcInfo_uses st) d in
       mkState (q ∪ s) ({[d]} ∪ used st) u.

(** [while (!queue.empty()) { ... }], with the iterations counted by [fuel]:
    [None] only when the fuel runs out with the queue not yet empty. *)
Fixpoint while_loop (fuel : nat) (st : State) : option State :=
  match set_begin (queue st) with
  | None => Some st
  | Some d =>
      match fuel with
      | O => None
      | S fuel' => while_loop fuel' (loop_body st d)
      end
  end.

Section Phase.

(** [Decl::getCanonicalDecl()], supplied by the AST. *)
Variable getCanonicalDecl : N → N.

(** [for (Decl* decl : srcInfo.declsToKeep) queue.insert(decl->getCanonicalDecl());] *)
Definition seed_queue (declsToKeep : list N) : gset N :=
  foldl (λ q decl, {[getCanonicalDecl decl]} ∪ q) ∅ declsToKeep.

(** The state on entry to the [while] loop. *)
Definition init (declsToKeep : list N) (u : gmap N (gset N)) : State :=
  mkState (seed_queue declsToKeep) ∅ u.

(** Every address that can ever be in the queue: an entry point or the
    target of an edge. *)
Definition universe (declsToKeep : list N) (u : gmap N (gset N)) : gset N :=
  seed_queue declsToKeep ∪ ⋃ (map_to_list u).*2.

(** A number of iterations no run exceeds. *)
Definition iteration_bound (declsToKeep : list N) (u : gmap N (gset N)) : nat :=
  let n := size (universe declsToKeep u) in S n * S n.

(** Step 2 as a whole: the set [used] handed to the lexical pruner. *)
Definition reachability_phase (declsToKeep : list N) (u : gmap N (gset N))
  : option (gset N) :=
  used <$> while_loop (iteration_bound declsToKeep u) (init declsToKeep u).

End Phase.

(** *** Specification side: paths in the dependency graph *)

(** [edge u a b]: [a] uses [b]. *)
Definition edge (u : gmap N (gset N)) (a b : N) : Prop :=
  ∃ s, u !! a = Some s ∧ b ∈ s.

(** [b] is reachable from some entry point along dependency edges. *)
Definition Reachable (u : gmap N (gset N)) (entry : gset N) (b : N) : Prop :=
  ∃ a, a ∈ entry ∧ rtc (edge u) a b.

(** *** Any pop order: the loop as a labelled transition system

    A step pops an arbitrary element of the queue; its label records the
    element and whether its successors were pushed (it was new to [used]). *)
Inductive run : State → list (N * bool) → State → Prop :=
  | run_done st : run st [] st
  | run_pop st d tr st' :
      d ∈ queue st →
      run (loop_body st d) tr st' →
      run st ((d, bool_decide (d ∉ used st)) :: tr) st'.

(** The declarations whose outgoing edges were pushed during a run. *)
Definition expanded (tr : list (N * bool)) : list N :=
  (filter (λ e, e.2 = true) tr).*1.

(** What every state of a run from [init] satisfies, for the graph [u0]
    and the entry points [entry] the run started with. *)
Record inv (u0 : gmap N (gset N)) (entry : gset N) (st : State) : Prop := mkInv {
  inv_used : ∀ d, d ∈ used st → Reachable u0 entry d;
  inv_queue : ∀ d, d ∈ queue st → Reachable u0 entry d;
  inv_entry : ∀ d, d ∈ entry → d ∈ used st ∨ d ∈ queue st;
  inv_closed : ∀ a b, a ∈ used st → edge u0 a b → b ∈ used st ∨ b ∈ queue st;
  inv_edges : ∀ a b, edge (srcInfo_uses st) a b ↔ edge u0 a b
}.

(** The state stays inside the finite set [U]. *)
Record bounded (U : gset N) (st : State) : Prop := mkBounded {
  bounded_queue : queue st ⊆ U;
  bounded_used : used st ⊆ U;
  bounded_edges : ∀ a b, edge (srcInfo_uses st) a b → b ∈ U
}.

(** The termination measure: declarations of [U] not yet used, then the
    length of the queue, in lexicographic order. *)
Definition measure (U : gset N) (st : State) : nat :=
  size (U ∖ used st) * S (size U) + size (queue st).

(** The set [used] after step 2. The [None] of exhausted fuel does not
    arise: [iteration_bound] iterations always reach the empty queue, as
    proved below. *)
Definition compute_used (getCanonicalDecl : N → N)
    (declsToKeep : list N) (u : gmap N (gset N)) : gset N :=
  default ∅ (reachability_phase getCanonicalDecl declsToKeep u).

(** ** C++ outcomes *)

(** What the file throws: a string literal ([throw "No source manager"]) or
    a [std::runtime_error]. *)
Inductive exception :=
  | cstring_exception (what : string)
  | runtime_error (what : string).

Inductive outcome (A : Type) :=
  | Returns (a : A)
  | Throws (e : exception).
Arguments Returns {A} a.
Arguments Throws {A} e.

(** ** Buffers and edits *)

(** [clang::SourceManager], as far as [getResult] uses it.
    [getBuffer fid] is [getBuffer(fid, &invalid)]: the buffer pointer
    ([None] for null) and the flag it sets. *)
Record SourceManager := mkSourceManager {
  getMainFileID : N;
  getBuffer : N → option string * bool
}.

(** An edit, in offsets of the original buffer; a deleted range is
    [lo, hi). *)
Inductive Edit :=
  | Delete (lo hi : N)
  | Insert (pos : N) (text : string).

Definition deletes (i : N) (e : Edit) : bool :=
  match e with
  | Delete lo hi => (lo <=? i)%N && (i <? hi)%N
  | Insert _ _ => false
  end.

Definition inserted (i : N) (es : list Edit) : string :=
  foldr (λ e acc, match e with
                  | Insert pos text => if (pos =? i)%N then text +:+ acc else acc
                  | Delete _ _ => acc
                  end) EmptyString es.

(** Modelled from the spec: the Edit Applier (SmartRewriter.cpp is not
    among the sources). All edits are applied in one pass over the original
    buffer: a byte covered by any delete range is dropped once, however many
    ranges overlap there; inserted text precedes the byte at its offset. *)
Fixpoint apply_from (es : list Edit) (i : N) (s : string) : string :=
  inserted i es +:+
  match s with
  | EmptyString => EmptyString
  | String c s' =>
      if existsb (deletes i) es then apply_from es (N.succ i) s'
      else String c (apply_from es (N.succ i) s')
  end.

Definition apply_edits (es : list Edit) (s : string) : string :=
  apply_from es 0 s.

(** Modelled from the spec: the [SmartRewriter] (SmartRewriter.h/.cpp are
    not among the sources): the edits accumulated from all passes, and the
    rewrite buffer per file once they have been applied. *)
Record SmartRewriter := mkSmartRewriter {
  scheduled : list Edit;
  rewriteBuffers : gmap N string
}.

(** [new SmartRewriter(sourceManager, langOpts)] *)
Definition new_SmartRewriter : SmartRewriter := mkSmartRewriter [] ∅.

(** Modelled from the spec: a pass hands its edits to the rewriter; passes
    append, none touches the edits of another. *)
Definition schedule (es : list Edit) (sr : SmartRewriter) : SmartRewriter :=
  mkSmartRewriter (scheduled sr ++ es) (rewriteBuffers sr).

(** Modelled from the spec: [SmartRewriter::applyChanges]. With no edit
    scheduled, or no valid main buffer to rewrite, no rewrite buffer comes
    into being (the source calls that path "No changes"). *)
Definition applyChanges (sm : SourceManager) (sr : SmartRewriter) : SmartRewriter :=
  match scheduled sr, getBuffer sm (getMainFileID sm) with
  | _ :: _, (Some text, false) =>
      mkSmartRewriter (scheduled sr)
        (<[getMainFileID sm := apply_edits (scheduled sr) text]> (rewriteBuffers sr))
  | _, _ => sr
  end.

(** Modelled from the spec: [SmartRewriter::getRewriteBufferFor(fid)], null
    unless the file was rewritten. *)
Definition getRewriteBufferFor (sr : SmartRewriter) (fid : N) : option string :=
  rewriteBuffers sr !! fid.

(** [OptimizerConsumer::getResult] *)
Definition getResult (sourceManager : SourceManager) (smartRewriter : SmartRewriter)
  : string :=
  match getRewriteBufferFor smartRewriter (getMainFileID sourceManager) with
  | Some rewriteBuf => rewriteBuf
  | None =>
      (* No changes *)
      let '(buf, invalid) := getBuffer sourceManager (getMainFileID sourceManager) in
      match buf with
      | Some text => if negb invalid then text else "Inliner error"
      | None => "Inliner error"
      end
  end.

(** ** The preprocessor block tracker *)

Record Branch := mkBranch {
  branch_range : N * N;
  taken : bool
}.

Record MacroRecord := mkMacro {
  macro_name : string;
  definition_range : N * N;
  expansion_sites : list (N * N)
}.

(** [RemoveInactivePreprocessorBlocks]: what the callbacks recorded, and the
    keep-list passed to the constructor. *)
Record RemoveInactivePreprocessorBlocks := mkPPCallbacks {
  branches : list Branch;
  macros : list MacroRecord;
  pp_macrosToKeep : gset string
}.

(** [new RemoveInactivePreprocessorBlocks(sourceManager, rewriter, macrosToKeep)] *)
Definition new_RemoveInactivePreprocessorBlocks (macrosToKeep : gset string)
  : RemoveInactivePreprocessorBlocks :=
  mkPPCallbacks [] [] macrosToKeep.

(** Modelled from the spec: the range [r] "falls inside a range that ended
    up removed", one scheduled for deletion. *)
Definition removed (es : list Edit) (r : N * N) : bool :=
  existsb (λ e, match e with
                | Delete lo hi => (lo <=? r.1)%N && (r.2 <=? hi)%N
                | Insert _ _ => false
                end) es.

(** Modelled from the spec: the dead-macro rule of
    [RemoveInactivePreprocessorBlocks::Finalize]
    (RemoveInactivePreprocessorBlocks.cpp is not among the sources): a
    definition goes if every recorded expansion site falls inside removed
    code, unless the macro's name is in the keep-list. *)
Definition dead_macro (keep : gset string) (es : list Edit) (m : MacroRecord) : bool :=
  forallb (removed es) (expansion_sites m) && negb (bool_decide (macro_name m ∈ keep)).

Definition pruned_macros (pp : RemoveInactivePreprocessorBlocks) (es : list Edit)
  : list MacroRecord :=
  filter (λ m, dead_macro (pp_macrosToKeep pp) es m = true) (macros pp).

(** Modelled from the spec: the inactive-branch rule of [Finalize]: every
    branch that was never taken is deleted. *)
Definition pruned_branches (pp : RemoveInactivePreprocessorBlocks) : list Branch :=
  filter (λ b, taken b = false) (branches pp).

Definition delete_range (r : N * N) : Edit := Delete r.1 r.2.

(** Modelled from the spec: [RemoveInactivePreprocessorBlocks::Finalize],
    given the edits scheduled so far: the edits of its two prunes. *)
Definition Finalize (pp : RemoveInactivePreprocessorBlocks) (es : list Edit)
  : list Edit :=
  (delete_range ∘ branch_range <$> pruned_branches pp)
  ++ (delete_range ∘ definition_range <$> pruned_macros pp es).

#[global] Instance MacroRecord_eq_dec : EqDecision MacroRecord.
Proof. solve_decision. Defined.






(** ** The collaborators of [OptimizerConsumer] *)

Record Diagnostic := mkDiagnostic {
  is_error : bool;
  message : string
}.

(** [SourceInfo] (SourceInfo.h), as far as this file reads it. *)
Record SourceInfo := mkSourceInfo {
  uses : gmap N (gset N);
  declsToKeep : list N;
  delayedParsedFunctions : list N
}.

(** The parser and the visitors the consumer drives. None of them is
    defined in this file, so each is an operation of an interface:
    - [ASTContext]: the parsed tree;
    - [DependenciesCollector]: [TraverseDecl] of the translation unit, filling
      [srcInfo];
    - [LateTemplateParser f]: the tree after the body of the late-parsed
      template [f] has been parsed, and the diagnostics the parser reports;
    - [OptimizerVisitor]: [TraverseDecl] and [Finalize], given the set [used]
      and the edits already scheduled: [removedDecls] and its edits;
    - [MergeNamespacesVisitor]: [TraverseDecl], given [removedDecls] and the
      edits already scheduled: its edits. *)
Class Collaborators := {
  ASTContext : Type;
  getCanonicalDecl : N → N;
  DependenciesCollector : SourceManager → ASTContext → SourceInfo;
  LateTemplateParser : N → ASTContext → ASTContext * list Diagnostic;
  OptimizerVisitor :
    SourceManager → ASTContext → gset N → list Edit → gset N * list Edit;
  MergeNamespacesVisitor :
    SourceManager → ASTContext → gset N → list Edit → list Edit
}.

(** What [HandleTranslationUnit] does, call by call. *)
Inductive Event :=
  | EvCollect                                (* depsVisitor.TraverseDecl *)
  | EvSuppress (b : bool)                    (* setSuppressAllDiagnostics(b) *)
  | EvLateParse (f : N)                      (* sema.LateTemplateParser *)
  | EvUsed (used : gset N)                   (* the worklist loop is over *)
  | EvPrune (used : gset N)                  (* OptimizerVisitor *)
  | EvMerge (removedDecls : gset N)          (* MergeNamespacesVisitor *)
  | EvFinalize (seen : list Edit)            (* ppCallbacks.Finalize *)
  | EvApply (all : list Edit)                (* smartRewriter->applyChanges *)
  | EvResult (text : string).                (* result = getResult() *)

(** The pipeline stage an event belongs to. *)
Inductive Stage :=
  | Collect | ComputeUsed | LexicalPrune | NamespaceMerge
  | PreprocessorFinalize | ApplyEdits | ReturnText.

Definition stage_of (e : Event) : Stage :=
  match e with
  | EvCollect | EvSuppress _ | EvLateParse _ => Collect
  | EvUsed _ => ComputeUsed
  | EvPrune _ => LexicalPrune
  | EvMerge _ => NamespaceMerge
  | EvFinalize _ => PreprocessorFinalize
  | EvApply _ => ApplyEdits
  | EvResult _ => ReturnText
  end.

#[global] Instance Stage_eq_dec : EqDecision Stage.
Proof. solve_decision. Defined.

(** The stages a log goes through: adjacent events of one stage count once. *)
Fixpoint stages (l : list Event) : list Stage :=
  match l with
  | [] => []
  | e :: l' =>
      match stages l' with
      | s :: ss => if decide (stage_of e = s) then s :: ss else stage_of e :: s :: ss
      | [] => [stage_of e]
      end
  end.

Section Consumer.

Context `{Collaborators}.

(** The objects one run of the consumer works on: the diagnostics engine of
    the compiler (its suppression flag and what it has passed on to its
    client), the tree, and the members of [OptimizerConsumer]. The rewriter
    and the preprocessor callbacks are single objects, shared by reference
    between the consumer and the preprocessor. *)
Record World := mkWorld {
  SuppressAllDiagnostics : bool;
  delivered : list Diagnostic;
  Ctx : ASTContext;
  sourceManager : SourceManager;
  smartRewriter : SmartRewriter;
  ppCallbacks : RemoveInactivePreprocessorBlocks;
  result : string;
  events : list Event
}.

(** State passing over [World]. *)
Definition M (A : Type) : Type := World → A * World.

Definition M_ret {A} (a : A) : M A := λ w, (a, w).
Definition M_bind {A B} (m : M A) (k : A → M B) : M B :=
  λ w, let '(a, w') := m w in k a w'.

Local Notation "x ← m ; k" := (M_bind m (λ x, k))
  (at level 20, m at level 100, k at level 200, only parsing).
Local Notation "m ;; k" := (M_bind m (λ _, k))
  (at level 100, k at level 200, only parsing, right associativity).

Definition emit (e : Event) : M unit := λ w,
  (tt, mkWorld (SuppressAllDiagnostics w) (delivered w) (Ctx w) (sourceManager w)
         (smartRewriter w) (ppCallbacks w) (result w) (events w ++ [e])).

(** [DiagnosticsEngine::setSuppressAllDiagnostics] *)
Definition setSuppressAllDiagnostics (b : bool) : M unit := λ w,
  emit (EvSuppress b)
    (mkWorld b (delivered w) (Ctx w) (sourceManager w)
       (smartRewriter w) (ppCallbacks w) (result w) (events w)).

(** A diagnostic reported to the engine reaches the client only while
    suppression is off. *)
Definition Report (d : Diagnostic) : M unit := λ w,
  (tt, if SuppressAllDiagnostics w then w
       else mkWorld (SuppressAllDiagnostics w) (delivered w ++ [d]) (Ctx w)
              (sourceManager w) (smartRewriter w) (ppCallbacks w) (result w)
              (events w)).

Definition set_Ctx (c : ASTContext) : M unit := λ w,
  (tt, mkWorld (SuppressAllDiagnostics w) (delivered w) c (sourceManager w)
         (smartRewriter w) (ppCallbacks w) (result w) (events w)).

Definition set_smartRewriter (sr : SmartRewriter) : M unit := λ w,
  (tt, mkWorld (SuppressAllDiagnostics w) (delivered w) (Ctx w) (sourceManager w)
         sr (ppCallbacks w) (result w) (events w)).

Definition set_result (r : string) : M unit := λ w,
  (tt, mkWorld (SuppressAllDiagnostics w) (delivered w) (Ctx w) (sourceManager w)
         (smartRewriter w) (ppCallbacks w) r (events w)).

Definition get : M World := λ w, (w, w).

(** [for (x : l) body(x);] *)
Fixpoint for_each {A} (l : list A) (body : A → M unit) : M unit :=
  match l with
  | [] => M_ret tt
  | x :: l' => body x;; for_each l' body
  end.

(** [sema.LateTemplateParser(sema.OpaqueParser, *lpt)] for the late-parsed
    template of [f]. *)
Definition force_parse (f : N) : M unit :=
  emit (EvLateParse f);;
  w ← get;
  let '(c, ds) := LateTemplateParser f (Ctx w) in
  set_Ctx c;;
  for_each ds Report.

(** Block 1 of [HandleTranslationUnit]: the dependency graph, then the
    forced parsing of the delayed-parsed function templates. *)
Definition collect_dependencies : M SourceInfo :=
  emit EvCollect;;
  w ← get;
  let srcInfo := DependenciesCollector (sourceManager w) (Ctx w) in
  setSuppressAllDiagnostics true;;
  for_each (delayedParsedFunctions srcInfo) force_parse;;
  setSuppressAllDiagnostics false;;
  M_ret srcInfo.

(** Block 2: the worklist. *)
Definition find_used (srcInfo : SourceInfo) : M (gset N) :=
  let used := compute_used getCanonicalDecl (declsToKeep srcInfo) (uses srcInfo) in
  emit (EvUsed used);;
  M_ret used.

(** Block 3: the two visitors; both write to the shared rewriter. *)
Definition remove_declarations (used : gset N) : M unit :=
  emit (EvPrune used);;
  w ← get;
  let '(removedDecls, es) :=
    OptimizerVisitor (sourceManager w) (Ctx w) used (scheduled (smartRewriter w)) in
  set_smartRewriter (schedule es (smartRewriter w));;
  emit (EvMerge removedDecls);;
  w ← get;
  let es' := MergeNamespacesVisitor (sourceManager w) (Ctx w) removedDecls
               (scheduled (smartRewriter w)) in
  set_smartRewriter (schedule es' (smartRewriter w)).

(** [ppCallbacks.Finalize()] *)
Definition ppCallbacks_Finalize : M unit :=
  w ← get;
  emit (EvFinalize (scheduled (smartRewriter w)));;
  set_smartRewriter
    (schedule (Finalize (ppCallbacks w) (scheduled (smartRewriter w)))
       (smartRewriter w)).

(** Everything up to, and without, [smartRewriter->applyChanges()]. *)
Definition run_passes : M unit :=
  srcInfo ← collect_dependencies;
  used ← find_used srcInfo;
  remove_declarations used;;
  ppCallbacks_Finalize.

(** [smartRewriter->applyChanges(); result = getResult();] *)
Definition emit_result : M unit :=
  w ← get;
  emit (EvApply (scheduled (smartRewriter w)));;
  set_smartRewriter (applyChanges (sourceManager w) (smartRewriter w));;
  w ← get;
  let r := getResult (sourceManager w) (smartRewriter w) in
  emit (EvResult r);;
  set_result r.

(** [OptimizerConsumer::HandleTranslationUnit] *)
Definition HandleTranslationUnit : M unit :=
  run_passes;;
  emit_result.

End Consumer.

(** ** [OptimizerFrontendAction::CreateASTConsumer] *)

(** [clang::CompilerInstance], as far as [CreateASTConsumer] uses it; the
    last field is what [getPreprocessor().addPPCallbacks] has been given. *)
Record CompilerInstance := mkCompilerInstance {
  hasSourceManager : bool;
  getSourceManager : SourceManager;
  registeredPPCallbacks : list RemoveInactivePreprocessorBlocks
}.

(** The members of a new [OptimizerConsumer] ([compiler] and [result] are
    references to objects of the caller). *)
Record OptimizerConsumer := mkOptimizerConsumer {
  consumer_sourceManager : SourceManager;
  consumer_smartRewriter : SmartRewriter;
  consumer_ppCallbacks : RemoveInactivePreprocessorBlocks
}.

(** The objects [CreateASTConsumer] constructs and registers, in order. *)
Inductive Construction :=
  | NewSmartRewriter
  | NewRemoveInactivePreprocessorBlocks
  | NewOptimizerConsumer
  | AddPPCallbacks.

Definition addPPCallbacks (pp : RemoveInactivePreprocessorBlocks)
    (compiler : CompilerInstance) : CompilerInstance :=
  mkCompilerInstance (hasSourceManager compiler) (getSourceManager compiler)
    (registeredPPCallbacks compiler ++ [pp]).

(** The outcome, the compiler afterwards, and what was constructed. *)
Definition CreateASTConsumer (macrosToKeep : gset string) (compiler : CompilerInstance)
  : outcome OptimizerConsumer * CompilerInstance * list Construction :=
  if negb (hasSourceManager compiler)
  then (Throws (cstring_exception "No source manager"), compiler, [])
  else
    let smartRewriter := new_SmartRewriter in
    let ppCallbacks := new_RemoveInactivePreprocessorBlocks macrosToKeep in
    let consumer :=
      mkOptimizerConsumer (getSourceManager compiler) smartRewriter ppCallbacks in
    (Returns consumer, addPPCallbacks ppCallbacks compiler,
     [NewSmartRewriter; NewRemoveInactivePreprocessorBlocks;
      NewOptimizerConsumer; AddPPCallbacks]).

(** The callbacks record what the preprocessor tells them; the keep-list is
    the one given at construction. *)
Definition recorded (pp : RemoveInactivePreprocessorBlocks)
    (bs : list Branch) (ms : list MacroRecord) : RemoveInactivePreprocessorBlocks :=
  mkPPCallbacks (branches pp ++ bs) (macros pp ++ ms) (pp_macrosToKeep pp).

(** The objects on entry to [HandleTranslationUnit]: the consumer as
    created, the callbacks with what they recorded during parsing, the tree,
    the state of the diagnostics engine, and [result] still as the caller
    initialised it. *)
Definition on_entry `{Collaborators} (consumer : OptimizerConsumer)
    (suppress : bool) (ds : list Diagnostic) (ctx : ASTContext)
    (bs : list Branch) (ms : list MacroRecord) (result0 : string) : World :=
  mkWorld suppress ds ctx (consumer_sourceManager consumer)
    (consumer_smartRewriter consumer)
    (recorded (consumer_ppCallbacks consumer) bs ms) result0 [].

(** ** [Optimizer] *)

Record Optimizer := mkOptimizer {
  cmdLineOptions : list string;
  macrosToKeep : gset string
}.

(** [Optimizer::Optimizer]: the keep-list vector becomes a [std::set]. *)
Definition new_Optimizer (cmdLineOptions_ macrosToKeep_ : list string) : Optimizer :=
  mkOptimizer cmdLineOptions_ (list_to_set macrosToKeep_).

(** [OptimizerFrontendActionFactory]: two references, to the [result] of
    [doOptimize] and to the keep-list of the [Optimizer]. *)
Record OptimizerFrontendActionFactory := mkFactory {
  factory_result : string;
  factory_macrosToKeep : gset string
}.

(** Clang's tooling layer and [util.h], neither defined in this file.
    [ClangTool_run db sources factory] is [ClangTool(db, sources).run(&factory)]:
    an exception escaping the run, or the status together with the contents
    of the factory's [result] when the run is over. *)
Class Tooling := {
  CompilationDatabase : Type;
  createCompilationDatabaseFromCommandLine : list string → CompilationDatabase;
  ClangTool_run :
    CompilationDatabase → list string → OptimizerFrontendActionFactory →
    outcome (Z * string)
}.

(** [Optimizer::doOptimize]: the outcome, and the [Optimizer] afterwards. *)
Definition doOptimize `{Tooling} (this : Optimizer) (cppFile : string)
  : outcome string * Optimizer :=
  let compilationDatabase :=
    createCompilationDatabaseFromCommandLine (cmdLineOptions this) in
  let sources := [cppFile] in
  let result := EmptyString in
  let factory := mkFactory result (macrosToKeep this) in
  match ClangTool_run compilationDatabase sources factory with
  | Throws e => (Throws e, this)
  | Returns (ret, result) =>
      if decide (ret ≠ 0)%Z
      then (Throws (runtime_error "Compilation error"), this)
      else (Returns result, this)
  end.

(** The tree after the late-parsed templates [fs] have been forced. *)
Definition forced `{Collaborators} (fs : list N) (ctx : ASTContext) : ASTContext :=
  foldl (λ c f, (LateTemplateParser f c).1) ctx fs.

(** ** What each pass works on, as a function of the state on entry *)

Section Passes.

Context `{Collaborators}.

(** What the dependency collector finds. *)
Definition srcInfo_of (w : World) : SourceInfo :=
  DependenciesCollector (sourceManager w) (Ctx w).

(** The tree the visitors traverse: the late-parsed templates forced. *)
Definition tree_of (w : World) : ASTContext :=
  forced (delayedParsedFunctions (srcInfo_of w)) (Ctx w).

Definition used_of (w : World) : gset N :=
  compute_used getCanonicalDecl (declsToKeep (srcInfo_of w)) (uses (srcInfo_of w)).

(** [removedDecls] and the edits of [OptimizerVisitor]. *)
Definition prune_of (w : World) : gset N * list Edit :=
  OptimizerVisitor (sourceManager w) (tree_of w) (used_of w)
    (scheduled (smartRewriter w)).

(** The edits of [MergeNamespacesVisitor]. *)
Definition merge_of (w : World) : list Edit :=
  MergeNamespacesVisitor (sourceManager w) (tree_of w) (prune_of w).1
    (scheduled (smartRewriter w) ++ (prune_of w).2).

(** The edits scheduled when [ppCallbacks.Finalize()] is called. *)
Definition edits_before_Finalize (w : World) : list Edit :=
  scheduled (smartRewriter w) ++ (prune_of w).2 ++ merge_of w.

(** The edits scheduled when [applyChanges()] is called: those of every
    pass. *)
Definition all_edits (w : World) : list Edit :=
  edits_before_Finalize w ++ Finalize (ppCallbacks w) (edits_before_Finalize w).

End Passes.

(** ** Sizes of the dependency graph *)

(** What [srcInfo.uses[d]] holds, read without inserting: the empty set for
    a missing key. *)
Definition uses_of (u : gmap N (gset N)) (d : N) : gset N :=
  default ∅ (u !! d).

(** The number of dependency edges: the sizes of the mapped sets, summed
    over the keys. *)
Definition edge_count (u : gmap N (gset N)) : nat :=
  sum_list_with (λ d, size (uses_of u d)) (elements (dom u)).

(** What reading [srcInfo.uses[decl]] does to the map along a run that
    started with the map [u0]: entries present stay as they are, and a key
    is in the map when it was there at the start or its declaration has
    been used. *)
Definition uses_grown (u0 : gmap N (gset N)) (st : State) : Prop :=
  (∀ k s, u0 !! k = Some s → srcInfo_uses st !! k = Some s)
  ∧ dom (srcInfo_uses st) = dom u0 ∪ used st.

(** ** [OptimizerFrontendActionFactory::create] *)

(** [OptimizerFrontendAction]: the two references it is constructed with. *)
Record OptimizerFrontendAction := mkAction {
  action_result : string;
  action_macrosToKeep : gset string
}.

(** [return new OptimizerFrontendAction(result, macrosToKeep);] *)
Definition create (factory : OptimizerFrontendActionFactory)
  : OptimizerFrontendAction :=
  mkAction (factory_result factory) (factory_macrosToKeep factory).

(** The factory [doOptimize] hands to the tool: [result] is a fresh, empty
    string; the keep-list is the member of the [Optimizer]. *)
Definition factory_of (this : Optimizer) : OptimizerFrontendActionFactory :=
  mkFactory EmptyString (macrosToKeep this).

(** ** A small frontend, for running the definitions on examples *)

(** A tree that is just the facts the visitors need: what the dependency
    collector finds, and the lexical declarations of the main file, each with
    its canonical declaration and its range. *)
Record ToyTree := mkToyTree {
  toy_info : SourceInfo;
  toy_lexical : list (N * (N * N))
}.

(** Stand-ins for the visitors: forcing a template reports an error and
    leaves the tree alone; a lexical declaration is removed when its
    canonical declaration is unused; no namespace is merged. *)
Definition toy : Collaborators := {|
  ASTContext := ToyTree;
  getCanonicalDecl := id;
  DependenciesCollector _ ctx := toy_info ctx;
  LateTemplateParser f ctx := (ctx, [mkDiagnostic true "expected expression"]);
  OptimizerVisitor _ ctx used _ :=
    let unused := filter (λ d, d.1 ∉ used) (toy_lexical ctx) in
    (list_to_set unused.*1, delete_range <$> unused.*2);
  MergeNamespacesVisitor _ _ _ _ := []
|}.

(** How the frontend drives the action for one parsed file: it asks for the
    consumer, lets the callbacks record while it parses, and hands the tree
    to [HandleTranslationUnit]; the status tells whether an error reached the
    diagnostics client. *)
Definition run_action `{Collaborators} (compiler : CompilerInstance)
    (ctx : ASTContext) (bs : list Branch) (ms : list MacroRecord)
    (factory : OptimizerFrontendActionFactory) : outcome (Z * string) :=
  match CreateASTConsumer (factory_macrosToKeep factory) compiler with
  | (Throws e, _, _) => Throws e
  | (Returns consumer, _, _) =>
      let w := on_entry consumer false [] ctx bs ms (factory_result factory) in
      let w' := (HandleTranslationUnit w).2 in
      Returns (if existsb is_error (delivered w') then 1%Z else 0%Z, result w')
  end.

Definition one_buffer (text : string) : SourceManager :=
  mkSourceManager 1 (λ fid, if (fid =? 1)%N then (Some text, false) else (None, true)).

(** Two files the toy frontend knows: in ["a.cpp"] declaration 2 ([main],
    bytes 24 to 45) is kept and declaration 1 (bytes 0 to 24) is unused;
    ["bad.cpp"] does not compile. Any other file is unknown. *)
Definition toy_tooling : Tooling := {|
  CompilationDatabase := list string;
  createCompilationDatabaseFromCommandLine := id;
  ClangTool_run db sources factory :=
    match sources with
    | [cppFile] =>
        if String.eqb cppFile "a.cpp" then
          @run_action toy
            (mkCompilerInstance true
               (one_buffer "int unused(){return 1;} int main(){return 0;}") [])
            (mkToyTree (mkSourceInfo {[2%N := ∅]} [2%N] []) [(1%N, (0%N, 24%N)); (2%N, (24%N, 45%N))])
            [] [] factory
        else if String.eqb cppFile "bad.cpp" then
          Returns (1%Z, "int main(){return 0;}")
        else Returns (2%Z, factory_result factory)
    | _ => Returns (2%Z, factory_result factory)
    end
|}.

(** *** Example states *)

(** A parsed file with one late-parsed template (declaration 3), used by
    nothing; forcing it reports an error. Suppression is off on entry, as
    the diagnostics engine of a compiler starts. *)
Definition template_to_force : @World toy :=
  @mkWorld toy false [] (mkToyTree (mkSourceInfo ∅ [2%N] [3%N]) [])
    (one_buffer "int main(){}") new_SmartRewriter
    (new_RemoveInactivePreprocessorBlocks ∅) "" [].




(** A parsed file in which every declaration is used ([main], declaration
    2, calls declaration 1), there is no conditional branch, and the one
    macro is expanded in surviving code. *)
Definition nothing_to_prune : @World toy :=
  @mkWorld toy false []
    (mkToyTree (mkSourceInfo {[2%N := {[1%N]}]} [2%N] [])
       [(1%N, (12%N, 30%N)); (2%N, (31%N, 47%N))])
    (one_buffer "#define K 5
int f(){return K;}
int main(){f();}") new_SmartRewriter
    (mkPPCallbacks [] [mkMacro "K" (0%N, 11%N) [(27%N, 28%N)]] ∅) "" [].

(** A source manager whose main file has no buffer. *)
Definition no_buffer : SourceManager :=
  mkSourceManager 1 (λ _, (None, true)).

(** * Theorems *)

(** ** The worklist *)

Section SetBegin.

Lemma foldr_min_elem (x : N) (l : list N) : foldr N.min x l ∈ x :: l.
Proof.
  induction l as [|y l IH]; simpl; [set_solver|].
  destruct (N.min_spec y (foldr N.min x l)) as [[_ ->]|[_ ->]]; set_solver.
Qed.

Lemma foldr_min_le (x : N) (l : list N) y :
  y ∈ x :: l → (foldr N.min x l ≤ y)%N.
Proof.
  induction l as [|z l IH]; simpl; intros Hy.
  - assert (y = x) as -> by set_solver. lia.
  - assert (y = z ∨ y ∈ x :: l) as [->|Hy'] by set_solver; [lia|].
    specialize (IH Hy'). lia.
Qed.

Lemma set_begin_None q : set_begin q = None ↔ q = ∅.
Proof.
  unfold set_begin. split.
  - destruct (elements q) eqn:E; [|done]. intros _.
    by apply leibniz_equiv, elements_empty_iff.
  - intros ->. by rewrite elements_empty.
Qed.

Lemma set_begin_Some q d : set_begin q = Some d → d ∈ q.
Proof.
  unfold set_begin. destruct (elements q) as [|x l] eqn:E; [done|].
  intros [= <-]. apply elem_of_elements. rewrite E. apply foldr_min_elem.
Qed.

(** [set_begin] is [std::set::begin]: the least element in address order. *)
Lemma set_begin_least q d x : set_begin q = Some d → x ∈ q → (d ≤ x)%N.
Proof.
  unfold set_begin. destruct (elements q) as [|y l] eqn:E; [done|].
  intros [= <-] Hx. apply foldr_min_le. rewrite <- E. by apply elem_of_elements.
Qed.

End SetBegin.

Section IndexUses.

Lemma edge_index_uses u d a b : edge (index_uses u d).2 a b ↔ edge u a b.
Proof.
  unfold index_uses, edge. destruct (u !! d) eqn:E; simpl; [done|].
  destruct (decide (a = d)) as [->|Hne].
  - rewrite lookup_insert_eq, E. split; intros (s & Hs & Hb); simplify_eq.
    set_solver.
  - by rewrite lookup_insert_ne.
Qed.

Lemma elem_of_index_uses u d b : b ∈ (index_uses u d).1 ↔ edge u d b.
Proof.
  unfold index_uses, edge. destruct (u !! d) eqn:E; simpl.
  - split; [eauto|]. by intros (s & [= <-] & Hb).
  - split; [set_solver|]. by intros (s & ? & _).
Qed.

Lemma loop_body_seen st d :
  d ∈ used st → loop_body st d = mkState (queue st ∖ {[d]}) (used st) (srcInfo_uses st).
Proof. intros Hd. unfold loop_body. by rewrite decide_True. Qed.

Lemma loop_body_new st d :
  d ∉ used st →
  loop_body st d =
    mkState (queue st ∖ {[d]} ∪ (index_uses (srcInfo_uses st) d).1)
            ({[d]} ∪ used st) (index_uses (srcInfo_uses st) d).2.
Proof.
  intros Hd. unfold loop_body. rewrite decide_False by done.
  by destruct (index_uses (srcInfo_uses st) d).
Qed.

Lemma used_loop_body st d : used st ⊆ used (loop_body st d).
Proof.
  destruct (decide (d ∈ used st)) as [Hd|Hd].
  - by rewrite loop_body_seen.
  - rewrite loop_body_new by done. simpl. set_solver.
Qed.

End IndexUses.

Section Invariant.

Variable u0 : gmap N (gset N).
Variable entry : gset N.

Lemma Reachable_entry d : d ∈ entry → Reachable u0 entry d.
Proof. intros Hd. exists d. split; [done|]. apply rtc_refl. Qed.

Lemma Reachable_edge a b : Reachable u0 entry a → edge u0 a b → Reachable u0 entry b.
Proof.
  intros (s & Hs & Hp) He. exists s. split; [done|].
  eapply rtc_r; eauto.
Qed.

Lemma inv_start : inv u0 entry (mkState entry ∅ u0).
Proof.
  constructor; simpl.
  - intros d Hd. by apply not_elem_of_empty in Hd.
  - apply Reachable_entry.
  - auto.
  - intros a b Ha. by apply not_elem_of_empty in Ha.
  - done.
Qed.

Lemma inv_loop_body st d :
  d ∈ queue st → inv u0 entry st → inv u0 entry (loop_body st d).
Proof.
  intros Hq [Hu Hqu He Hc Hed].
  destruct (decide (d ∈ used st)) as [Hd|Hd].
  - rewrite loop_body_seen by done. constructor; simpl.
    + done.
    + intros x Hx. apply Hqu. set_solver.
    + intros x Hx. destruct (He x Hx) as [?|?]; [by left|].
      destruct (decide (x = d)) as [->|?]; [by left|right; set_solver].
    + intros a b Ha Hab. destruct (Hc a b Ha Hab) as [?|?]; [by left|].
      destruct (decide (b = d)) as [->|?]; [by left|right; set_solver].
    + done.
  - rewrite loop_body_new by done. constructor; simpl.
    + intros x Hx. apply elem_of_union in Hx as [Hx|Hx]; [|by apply Hu].
      apply elem_of_singleton in Hx as ->. by apply Hqu.
    + intros x Hx. apply elem_of_union in Hx as [Hx|Hx].
      * apply Hqu. set_solver.
      * apply elem_of_index_uses, Hed in Hx.
        eapply Reachable_edge; [|done]. by apply Hqu.
    + intros x Hx. destruct (decide (x = d)) as [->|?]; [left; set_solver|].
      destruct (He x Hx) as [?|?]; [left|right]; set_solver.
    + intros a b Ha Hab. destruct (decide (b = d)) as [->|?]; [left; set_solver|].
      apply elem_of_union in Ha as [Ha|Ha].
      * apply elem_of_singleton in Ha as ->. right.
        apply elem_of_union_r, elem_of_index_uses, Hed. done.
      * destruct (Hc a b Ha Hab) as [?|?]; [left|right]; set_solver.
    + intros a b. rewrite edge_index_uses. apply Hed.
Qed.

Lemma inv_run st tr st' : run st tr st' → inv u0 entry st → inv u0 entry st'.
Proof. induction 1; [done|]. intros Hi. by apply IHrun, inv_loop_body. Qed.

(** With the queue empty, [used] holds the entry points and is closed under
    edges, so it holds everything reachable, and nothing else. *)
Lemma inv_final st d :
  inv u0 entry st → queue st = ∅ → d ∈ used st ↔ Reachable u0 entry d.
Proof.
  intros [Hu Hqu He Hc Hed] Hq. split; [apply Hu|].
  intros (s & Hs & Hp).
  assert (s ∈ used st) as Hs'.
  { destruct (He s Hs) as [?|Hx]; [done|]. rewrite Hq in Hx. set_solver. }
  clear Hs. induction Hp as [|a b c Hab _ IH]; [done|].
  apply IH. destruct (Hc a b Hs' Hab) as [?|Hx]; [done|].
  rewrite Hq in Hx. set_solver.
Qed.

End Invariant.

Section Termination.

Variable U : gset N.

Lemma bounded_loop_body st d :
  d ∈ queue st → bounded U st → bounded U (loop_body st d).
Proof.
  intros Hq [Hbq Hbu Hbe].
  destruct (decide (d ∈ used st)) as [Hd|Hd].
  - rewrite loop_body_seen by done. constructor; simpl; [set_solver|done|done].
  - rewrite loop_body_new by done. constructor; simpl.
    + intros x Hx. apply elem_of_union in Hx as [Hx|Hx]; [set_solver|].
      apply elem_of_index_uses in Hx. eauto.
    + set_solver.
    + intros a b Hab. apply edge_index_uses in Hab. eauto.
Qed.

Lemma bounded_run st tr st' : run st tr st' → bounded U st → bounded U st'.
Proof. induction 1; [done|]. intros Hb. by apply IHrun, bounded_loop_body. Qed.

(** Every iteration lowers the measure: a declaration already used only
    leaves the queue; a new one grows [used], which pays for whatever its
    successors add to the queue. *)
Lemma measure_loop_body st d :
  d ∈ queue st → bounded U st → measure U (loop_body st d) < measure U st.
Proof.
  intros Hq Hb. pose proof (bounded_loop_body st d Hq Hb) as [Hbq' _ _].
  destruct Hb as [Hbq Hbu _]. unfold measure.
  destruct (decide (d ∈ used st)) as [Hd|Hd].
  - rewrite loop_body_seen by done. simpl.
    rewrite (size_difference (queue st) {[d]}) by set_solver.
    assert (size ({[d]} : gset N) ≤ size (queue st)) as Hle
      by (apply subseteq_size; set_solver).
    rewrite size_singleton in *. lia.
  - rewrite loop_body_new in * by done. simpl in *.
    assert (size (U ∖ ({[d]} ∪ used st)) < size (U ∖ used st)) as Hlt.
    { apply subset_size. split; [set_solver|].
      intros Hsub. assert (d ∈ U ∖ used st) as Hin by set_solver.
      apply Hsub in Hin. set_solver. }
    apply subseteq_size in Hbq'. nia.
Qed.

Lemma run_length st tr st' :
  run st tr st' → bounded U st → length tr + measure U st' ≤ measure U st.
Proof.
  induction 1 as [|st d tr st' Hq _ IH]; intros Hb; simpl; [lia|].
  pose proof (measure_loop_body st d Hq Hb).
  specialize (IH (bounded_loop_body st d Hq Hb)). lia.
Qed.

(** With fuel for [measure] iterations the loop runs to an empty queue, and
    what it does is one of the runs of the transition system. *)
Lemma while_loop_enough fuel st :
  bounded U st → measure U st ≤ fuel →
  ∃ st' tr, while_loop fuel st = Some st' ∧ run st tr st' ∧ queue st' = ∅.
Proof.
  revert st. induction fuel as [|fuel IH]; intros st Hb Hm.
  - exists st, []. assert (queue st = ∅) as Hq.
    { apply leibniz_equiv, size_empty_iff. unfold measure in Hm. lia. }
    simpl. rewrite (proj2 (set_begin_None _) Hq). eauto using run.
  - simpl. destruct (set_begin (queue st)) as [d|] eqn:E.
    + apply set_begin_Some in E.
      pose proof (measure_loop_body st d E Hb).
      destruct (IH (loop_body st d)) as (st' & tr & Hw & Hr & Hq);
        [by apply bounded_loop_body|lia|].
      exists st', ((d, bool_decide (d ∉ used st)) :: tr). eauto using run.
    + apply set_begin_None in E. exists st, []. eauto using run.
Qed.

End Termination.

Section Traces.

Lemma expanded_cons d (b : bool) tr :
  expanded ((d, b) :: tr) = if b then d :: expanded tr else expanded tr.
Proof.
  unfold expanded. rewrite filter_cons. simpl.
  destruct b; [by rewrite decide_True|by rewrite decide_False].
Qed.

Lemma used_run st tr st' : run st tr st' → used st ⊆ used st'.
Proof.
  induction 1 as [|st d tr st' _ _ IH]; [done|].
  etrans; [apply used_loop_body|done].
Qed.

(** Successors are pushed only for a declaration not yet in [used]. *)
Lemma expanded_fresh st tr st' d :
  run st tr st' → d ∈ expanded tr → d ∉ used st.
Proof.
  induction 1 as [|st x tr st' _ _ IH]; intros Hd.
  - by apply elem_of_nil in Hd.
  - rewrite expanded_cons in Hd. intros Hu.
    case_bool_decide as Hx.
    + apply elem_of_cons in Hd as [->|Hd]; [done|].
      apply IH; [done|]. by apply used_loop_body.
    + apply IH; [done|]. by apply used_loop_body.
Qed.

Lemma expanded_NoDup st tr st' : run st tr st' → NoDup (expanded tr).
Proof.
  induction 1 as [|st d tr st' _ Hr IH]; [apply NoDup_nil_2|].
  rewrite expanded_cons. case_bool_decide as Hd; [|done].
  apply NoDup_cons_2; [|done]. intros Hin.
  apply (expanded_fresh _ _ _ _ Hr Hin).
  rewrite loop_body_new by done. simpl. set_solver.
Qed.

End Traces.

Section Phase_facts.

Variable getCanonicalDecl : N → N.

Lemma seed_queue_eq declsToKeep :
  seed_queue getCanonicalDecl declsToKeep
  = list_to_set (getCanonicalDecl <$> declsToKeep).
Proof.
  unfold seed_queue.
  assert (∀ acc : gset N,
    foldl (λ q decl, {[getCanonicalDecl decl]} ∪ q) acc declsToKeep
    = list_to_set (getCanonicalDecl <$> declsToKeep) ∪ acc) as H.
  { induction declsToKeep as [|x l IH]; intros acc; simpl; [set_solver|].
    rewrite IH. set_solver. }
  rewrite H. set_solver.
Qed.

Lemma elem_of_seed_queue declsToKeep d :
  d ∈ seed_queue getCanonicalDecl declsToKeep
  ↔ ∃ decl, decl ∈ declsToKeep ∧ d = getCanonicalDecl decl.
Proof.
  rewrite seed_queue_eq, elem_of_list_to_set, list_elem_of_fmap. naive_solver.
Qed.

Lemma bounded_init declsToKeep u :
  bounded (universe getCanonicalDecl declsToKeep u)
          (init getCanonicalDecl declsToKeep u).
Proof.
  constructor; simpl; unfold universe.
  - set_solver.
  - set_solver.
  - intros a b (s & Hs & Hb). apply elem_of_union_r, elem_of_union_list.
    exists s. split; [|done]. apply list_elem_of_fmap.
    exists (a, s). split; [done|]. by apply elem_of_map_to_list.
Qed.

Lemma measure_init declsToKeep u :
  measure (universe getCanonicalDecl declsToKeep u)
          (init getCanonicalDecl declsToKeep u)
  ≤ iteration_bound getCanonicalDecl declsToKeep u.
Proof.
  unfold measure, iteration_bound. simpl.
  set (U := universe getCanonicalDecl declsToKeep u).
  assert (size (U ∖ ∅) ≤ size U) by (apply subseteq_size; set_solver).
  assert (size (seed_queue getCanonicalDecl declsToKeep) ≤ size U)
    by (apply subseteq_size; unfold U, universe; set_solver).
  nia.
Qed.

End Phase_facts.

(** C1. The set [used] that step 2 of [HandleTranslationUnit] computes holds
    exactly the declarations reachable, along [uses] edges, from the
    canonical declarations of [declsToKeep]; and every other order of
    popping the worklist, run until the queue is empty, ends with the very
    same set. *)
Theorem used_is_reachable_set
    (getCanonicalDecl : N → N) (declsToKeep : list N) (u : gmap N (gset N)) :
  ∃ usedset,
    reachability_phase getCanonicalDecl declsToKeep u = Some usedset
    ∧ (∀ d, d ∈ usedset ↔
            Reachable u (list_to_set (getCanonicalDecl <$> declsToKeep)) d)
    ∧ (∀ tr st, run (init getCanonicalDecl declsToKeep u) tr st →
                queue st = ∅ → used st = usedset).
Proof.
  destruct (while_loop_enough _ _ _ (bounded_init getCanonicalDecl declsToKeep u)
              (measure_init getCanonicalDecl declsToKeep u))
    as (st' & tr' & Hw & Hr' & Hq').
  pose proof (inv_start u (seed_queue getCanonicalDecl declsToKeep)) as Hi.
  assert (∀ tr st, run (init getCanonicalDecl declsToKeep u) tr st →
            queue st = ∅ → ∀ d, d ∈ used st ↔
              Reachable u (list_to_set (getCanonicalDecl <$> declsToKeep)) d) as Hany.
  { intros tr st Hr Hq d. rewrite <- seed_queue_eq.
    apply inv_final; [|done]. by apply (inv_run _ _ _ _ _ Hr). }
  exists (used st'). split; [|split].
  - unfold reachability_phase. by rewrite Hw.
  - by apply (Hany tr').
  - intros tr st Hr Hq. apply set_eq. intros d.
    by rewrite (Hany tr st Hr Hq), (Hany tr' st' Hr' Hq').
Qed.

(** C2. The worklist loop terminates on every dependency graph, cyclic or
    not: along any run a declaration has its successors pushed at most
    once and the number of iterations stays below [iteration_bound], so the
    loop of the source, given that many iterations, ends with an empty
    queue. *)
Theorem worklist_terminates
    (getCanonicalDecl : N → N) (declsToKeep : list N) (u : gmap N (gset N)) :
  (∀ tr st, run (init getCanonicalDecl declsToKeep u) tr st →
      NoDup (expanded tr)
      ∧ length tr ≤ iteration_bound getCanonicalDecl declsToKeep u)
  ∧ ∃ st, while_loop (iteration_bound getCanonicalDecl declsToKeep u)
                     (init getCanonicalDecl declsToKeep u) = Some st
          ∧ queue st = ∅.
Proof.
  split.
  - intros tr st Hr. split; [by eapply expanded_NoDup|].
    pose proof (run_length _ _ _ _ Hr (bounded_init getCanonicalDecl declsToKeep u)).
    pose proof (measure_init getCanonicalDecl declsToKeep u). lia.
  - destruct (while_loop_enough _ _ _ (bounded_init getCanonicalDecl declsToKeep u)
                (measure_init getCanonicalDecl declsToKeep u))
      as (st' & tr' & Hw & _ & Hq').
    eauto.
Qed.


(** ** Block 1: forced parsing under suppression *)

Section Collect.

Context `{Collaborators}.

Lemma for_each_Report_suppressed ds w :
  SuppressAllDiagnostics w = true → for_each ds Report w = (tt, w).
Proof.
  intros Hs. induction ds as [|d ds IH]; [done|].
  simpl. unfold M_bind, Report at 1. by rewrite Hs.
Qed.

Lemma force_parse_suppressed f w :
  SuppressAllDiagnostics w = true →
  force_parse f w =
    (tt, mkWorld true (delivered w) (LateTemplateParser f (Ctx w)).1
           (sourceManager w) (smartRewriter w) (ppCallbacks w) (result w)
           (events w ++ [EvLateParse f])).
Proof.
  intros Hs. unfold force_parse, M_bind, emit, get. simpl.
  destruct (LateTemplateParser f (Ctx w)) as [c ds]. simpl.
  unfold set_Ctx. simpl. rewrite for_each_Report_suppressed by done.
  by rewrite Hs.
Qed.

Lemma for_each_force_parse_suppressed fs w :
  SuppressAllDiagnostics w = true →
  for_each fs force_parse w =
    (tt, mkWorld true (delivered w) (forced fs (Ctx w))
           (sourceManager w) (smartRewriter w) (ppCallbacks w) (result w)
           (events w ++ (EvLateParse <$> fs))).
Proof.
  revert w. induction fs as [|f fs IH]; intros w Hs.
  - simpl. unfold M_ret. rewrite app_nil_r. destruct w; simpl in *. by subst.
  - simpl. unfold M_bind. rewrite force_parse_suppressed by done.
    rewrite IH by done. simpl. by rewrite <- app_assoc.
Qed.

(** Block 1 in closed form: whatever the parser reports while the templates
    are forced, nothing reaches the client; the tree is the forced one; the
    flag ends off. *)
Lemma collect_dependencies_eq w :
  collect_dependencies w =
    let srcInfo := DependenciesCollector (sourceManager w) (Ctx w) in
    (srcInfo,
     mkWorld false (delivered w) (forced (delayedParsedFunctions srcInfo) (Ctx w))
       (sourceManager w) (smartRewriter w) (ppCallbacks w) (result w)
       (events w ++ [EvCollect; EvSuppress true]
          ++ (EvLateParse <$> delayedParsedFunctions srcInfo)
          ++ [EvSuppress false])).
Proof.
  unfold collect_dependencies, M_bind, get. simpl.
  rewrite for_each_force_parse_suppressed by done. simpl.
  unfold M_ret. do 2 f_equal. rewrite <- !app_assoc. done.
Qed.

End Collect.

(** ** [HandleTranslationUnit] in closed form *)

Section Pipeline.

Context `{Collaborators}.

Lemma find_used_eq srcInfo w :
  find_used srcInfo w =
    let u := compute_used getCanonicalDecl (declsToKeep srcInfo) (uses srcInfo) in
    (u, mkWorld (SuppressAllDiagnostics w) (delivered w) (Ctx w) (sourceManager w)
          (smartRewriter w) (ppCallbacks w) (result w) (events w ++ [EvUsed u])).
Proof. done. Qed.

Lemma remove_declarations_eq u w :
  remove_declarations u w =
    let p := OptimizerVisitor (sourceManager w) (Ctx w) u (scheduled (smartRewriter w)) in
    let es' := MergeNamespacesVisitor (sourceManager w) (Ctx w) p.1
                 (scheduled (smartRewriter w) ++ p.2) in
    (tt, mkWorld (SuppressAllDiagnostics w) (delivered w) (Ctx w) (sourceManager w)
           (mkSmartRewriter (scheduled (smartRewriter w) ++ p.2 ++ es')
              (rewriteBuffers (smartRewriter w)))
           (ppCallbacks w) (result w)
           (events w ++ [EvPrune u; EvMerge p.1])).
Proof.
  unfold remove_declarations, M_bind, get, emit, set_smartRewriter, schedule. simpl.
  destruct (OptimizerVisitor _ _ _ _) as [removedDecls es]. simpl.
  by rewrite <- !app_assoc.
Qed.

Lemma ppCallbacks_Finalize_eq w :
  ppCallbacks_Finalize w =
    (tt, mkWorld (SuppressAllDiagnostics w) (delivered w) (Ctx w) (sourceManager w)
           (mkSmartRewriter
              (scheduled (smartRewriter w)
                 ++ Finalize (ppCallbacks w) (scheduled (smartRewriter w)))
              (rewriteBuffers (smartRewriter w)))
           (ppCallbacks w) (result w)
           (events w ++ [EvFinalize (scheduled (smartRewriter w))])).
Proof. done. Qed.

(** The log of the passes, from the state [w] on entry. *)
Lemma run_passes_eq w :
  run_passes w =
    (tt, mkWorld false (delivered w) (tree_of w) (sourceManager w)
           (mkSmartRewriter (all_edits w) (rewriteBuffers (smartRewriter w)))
           (ppCallbacks w) (result w)
           (events w ++ [EvCollect; EvSuppress true]
              ++ (EvLateParse <$> delayedParsedFunctions (srcInfo_of w))
              ++ [EvSuppress false; EvUsed (used_of w); EvPrune (used_of w);
                  EvMerge (prune_of w).1; EvFinalize (edits_before_Finalize w)])).
Proof.
  unfold run_passes, M_bind. rewrite collect_dependencies_eq. cbv beta iota zeta.
  rewrite find_used_eq. cbv beta iota zeta.
  rewrite remove_declarations_eq. cbv beta iota zeta.
  rewrite ppCallbacks_Finalize_eq. simpl.
  unfold all_edits, edits_before_Finalize, merge_of, prune_of, used_of, tree_of,
    srcInfo_of.
  rewrite <- !app_assoc. simpl. rewrite <- !app_assoc. done.
Qed.

Lemma emit_result_eq w :
  emit_result w =
    let sr := applyChanges (sourceManager w) (smartRewriter w) in
    let r := getResult (sourceManager w) sr in
    (tt, mkWorld (SuppressAllDiagnostics w) (delivered w) (Ctx w) (sourceManager w)
           sr (ppCallbacks w) r
           (events w ++ [EvApply (scheduled (smartRewriter w)); EvResult r])).
Proof.
  unfold emit_result, M_bind, get, emit, set_smartRewriter, set_result. simpl.
  by rewrite <- !app_assoc.
Qed.

Lemma HandleTranslationUnit_eq w :
  HandleTranslationUnit w =
    let sr := applyChanges (sourceManager w)
                (mkSmartRewriter (all_edits w) (rewriteBuffers (smartRewriter w))) in
    let r := getResult (sourceManager w) sr in
    (tt, mkWorld false (delivered w) (tree_of w) (sourceManager w) sr
           (ppCallbacks w) r
           (events w ++ [EvCollect; EvSuppress true]
              ++ (EvLateParse <$> delayedParsedFunctions (srcInfo_of w))
              ++ [EvSuppress false; EvUsed (used_of w); EvPrune (used_of w);
                  EvMerge (prune_of w).1; EvFinalize (edits_before_Finalize w);
                  EvApply (all_edits w); EvResult r])).
Proof.
  unfold HandleTranslationUnit, M_bind. rewrite run_passes_eq. cbv beta iota zeta.
  rewrite emit_result_eq. simpl. rewrite <- !app_assoc. simpl. rewrite <- !app_assoc. done.
Qed.

End Pipeline.

(** ** The claims about the pipeline *)

Section Stages.

Lemma stages_cons e l :
  stages (e :: l) =
    match stages l with
    | s :: ss => if decide (stage_of e = s) then s :: ss else stage_of e :: s :: ss
    | [] => [stage_of e]
    end.
Proof. done. Qed.

Lemma stages_late_parse fs l ss :
  stages l = Collect :: ss → stages ((EvLateParse <$> fs) ++ l) = Collect :: ss.
Proof.
  intros Hl. induction fs as [|f fs IH]; [done|].
  rewrite fmap_cons, <- app_comm_cons, stages_cons, IH. done.
Qed.

End Stages.

(** C7. Every run of [HandleTranslationUnit] goes through the stages in
    the one order collect, compute the used set, lexical prune, namespace
    merge, preprocessor finalize, apply edits, return text, each stage
    working on what the stages before it produced: the used set comes from
    the dependencies collected, [OptimizerVisitor] gets that set and the
    forced tree, [MergeNamespacesVisitor] gets its [removedDecls],
    [Finalize] is called with the edits of both already scheduled,
    [applyChanges] applies the edits of all three, and [result] is what
    [getResult] then reads. The callbacks' record is only read. *)
Theorem pipeline_order `{Collaborators} (w : World) :
  let sm := sourceManager w in
  let srcInfo := DependenciesCollector sm (Ctx w) in
  let tree := forced (delayedParsedFunctions srcInfo) (Ctx w) in
  let U := compute_used getCanonicalDecl (declsToKeep srcInfo) (uses srcInfo) in
  let pruned := OptimizerVisitor sm tree U (scheduled (smartRewriter w)) in
  let es1 := scheduled (smartRewriter w) ++ pruned.2 in
  let es2 := es1 ++ MergeNamespacesVisitor sm tree pruned.1 es1 in
  let es3 := es2 ++ Finalize (ppCallbacks w) es2 in
  let sr := applyChanges sm (mkSmartRewriter es3 (rewriteBuffers (smartRewriter w))) in
  let log :=
    [EvCollect; EvSuppress true]
      ++ (EvLateParse <$> delayedParsedFunctions srcInfo)
      ++ [EvSuppress false; EvUsed U; EvPrune U; EvMerge pruned.1;
          EvFinalize es2; EvApply es3; EvResult (getResult sm sr)] in
  HandleTranslationUnit w =
    (tt, mkWorld false (delivered w) tree sm sr (ppCallbacks w)
           (getResult sm sr) (events w ++ log))
  ∧ stages log =
      [Collect; ComputeUsed; LexicalPrune; NamespaceMerge;
       PreprocessorFinalize; ApplyEdits; ReturnText].
Proof.
  cbv zeta. split.
  - rewrite HandleTranslationUnit_eq. cbv zeta.
    unfold all_edits, edits_before_Finalize, merge_of, prune_of, used_of, tree_of,
      srcInfo_of.
    by rewrite <- !app_assoc.
  - simpl. erewrite stages_late_parse; [|done]. done.
Qed.

(** Block 1 from any state on entry. While the delayed-parsed templates
    are forced, suppression is on, before each of them and after the last:
    whatever the parser reports, nothing reaches the diagnostics client.
    After the loop suppression is off. *)
Lemma forced_parsing_is_silent `{Collaborators} (w : World) :
  let w1 := (collect_dependencies w).2 in
  (∀ fs fs', delayedParsedFunctions (srcInfo_of w) = fs ++ fs' →
     SuppressAllDiagnostics
       (for_each fs force_parse
          (setSuppressAllDiagnostics true (emit EvCollect w).2).2).2 = true)
  ∧ delivered w1 = delivered w
  ∧ events w1 =
      events w ++ [EvCollect; EvSuppress true]
        ++ (EvLateParse <$> delayedParsedFunctions (srcInfo_of w))
        ++ [EvSuppress false]
  ∧ SuppressAllDiagnostics w1 = false.
Proof.
  rewrite collect_dependencies_eq. cbv zeta. simpl.
  split; [|repeat split; done].
  intros fs fs' _. by rewrite for_each_force_parse_suppressed.
Qed.

(** C8. From a state with suppression off, as the diagnostics engine is
    when the consumer is called: while the delayed-parsed templates are
    forced suppression is on, before each of them and after the last, so
    whatever the parser reports there, nothing reaches the diagnostics
    client; suppression is switched off again after the loop. The state of
    the diagnostics engine, the flag and what was delivered, is after block 1
    and after the whole of [HandleTranslationUnit] what it was on entry, so
    the errors the client has seen, by which a run fails, are the same. *)
Theorem forced_parsing_keeps_diagnostics `{Collaborators} (w : World) :
  SuppressAllDiagnostics w = false →
  let w1 := (collect_dependencies w).2 in
  let w' := (HandleTranslationUnit w).2 in
  (∀ fs fs', delayedParsedFunctions (srcInfo_of w) = fs ++ fs' →
     SuppressAllDiagnostics
       (for_each fs force_parse
          (setSuppressAllDiagnostics true (emit EvCollect w).2).2).2 = true)
  ∧ events w1 =
      events w ++ [EvCollect; EvSuppress true]
        ++ (EvLateParse <$> delayedParsedFunctions (srcInfo_of w))
        ++ [EvSuppress false]
  ∧ (SuppressAllDiagnostics w1, delivered w1)
    = (SuppressAllDiagnostics w, delivered w)
  ∧ (SuppressAllDiagnostics w', delivered w')
    = (SuppressAllDiagnostics w, delivered w)
  ∧ existsb is_error (delivered w') = existsb is_error (delivered w).
Proof.
  intros Hoff. cbv zeta.
  destruct (forced_parsing_is_silent w) as (Hon & Hd & Hev & Hflag).
  split; [exact Hon|]. split; [exact Hev|].
  rewrite Hd, Hflag, Hoff. split; [done|].
  rewrite HandleTranslationUnit_eq. cbv zeta. simpl. done.
Qed.

Lemma forced_parsing_keeps_diagnostics_witness :
  (SuppressAllDiagnostics (@HandleTranslationUnit toy template_to_force).2,
   delivered (@HandleTranslationUnit toy template_to_force).2)
  = (false, []).
Proof.
  exact (proj1 (proj2 (proj2 (proj2
           (@forced_parsing_keeps_diagnostics toy template_to_force eq_refl))))).
Defined.

(** ** Emitting the result *)

Section Result.



Lemma applyChanges_nothing_scheduled sm bufs :
  applyChanges sm (mkSmartRewriter [] bufs) = mkSmartRewriter [] bufs.
Proof. done. Qed.

(** With no inactive branch and no dead macro, [Finalize] schedules nothing. *)
Lemma Finalize_nothing pp es :
  pruned_branches pp = [] → pruned_macros pp es = [] → Finalize pp es = [].
Proof. unfold Finalize. by intros -> ->. Qed.

End Result.

(** C3. If no pass schedules an edit, the text [HandleTranslationUnit]
    leaves in [result] is the main file's buffer, byte for byte. *)
Theorem identity_law `{Collaborators} (w : World) (text : string) :
  getBuffer (sourceManager w) (getMainFileID (sourceManager w)) = (Some text, false) →
  getRewriteBufferFor (smartRewriter w) (getMainFileID (sourceManager w)) = None →
  all_edits w = [] →
  result (HandleTranslationUnit w).2 = text.
Proof.
  intros Hbuf Hnone Hedits. rewrite HandleTranslationUnit_eq. cbv zeta. simpl.
  rewrite Hedits, applyChanges_nothing_scheduled.
  unfold getResult, getRewriteBufferFor in *. simpl. by rewrite Hnone, Hbuf.
Qed.

Lemma identity_law_witness :
  all_edits nothing_to_prune = []
  ∧ result (@HandleTranslationUnit toy nothing_to_prune).2 = "#define K 5
int f(){return K;}
int main(){f();}".
Proof.
  assert (all_edits nothing_to_prune = []) as Hnone by (vm_compute; reflexivity).
  split; [exact Hnone|].
  apply (@identity_law toy nothing_to_prune); [reflexivity|reflexivity|exact Hnone].
Defined.

(** C4. With no rewrite buffer for the main file and its buffer missing or
    invalid, [getResult] returns the string "Inliner error", the same for
    every such state. *)
Theorem getResult_degraded (sourceManager : SourceManager) (smartRewriter : SmartRewriter) :
  getRewriteBufferFor smartRewriter (getMainFileID sourceManager) = None →
  (getBuffer sourceManager (getMainFileID sourceManager)).1 = None
    ∨ (getBuffer sourceManager (getMainFileID sourceManager)).2 = true →
  getResult sourceManager smartRewriter = "Inliner error".
Proof.
  intros Hnone Hbad. unfold getResult. rewrite Hnone.
  destruct (getBuffer sourceManager (getMainFileID sourceManager)) as [[text|] invalid];
    simpl in *; [|done].
  destruct Hbad as [?| ->]; done.
Qed.

Lemma getResult_degraded_witness :
  getResult no_buffer new_SmartRewriter = "Inliner error".
Proof.
  apply (getResult_degraded no_buffer new_SmartRewriter); [reflexivity|].
  left. reflexivity.
Defined.

(** C10. Without a source manager [CreateASTConsumer] throws and has
    constructed nothing, the compiler being as it was; when it returns a
    consumer, the compiler had a source manager. *)
Theorem CreateASTConsumer_needs_source_manager
    (keep : gset string) (compiler : CompilerInstance) :
  (hasSourceManager compiler = false →
     CreateASTConsumer keep compiler
     = (Throws (cstring_exception "No source manager"), compiler, []))
  ∧ (∀ consumer compiler' made,
       CreateASTConsumer keep compiler = (Returns consumer, compiler', made) →
       hasSourceManager compiler = true).
Proof.
  unfold CreateASTConsumer. destruct (hasSourceManager compiler); simpl.
  - split; [done|]. done.
  - split; [done|]. intros ??? [=].
Qed.

Section Optimize.

Context `{Tooling}.

Lemma doOptimize_this this cppFile : (doOptimize this cppFile).2 = this.
Proof.
  unfold doOptimize. destruct (ClangTool_run _ _ _) as [[ret r]|e]; [|done].
  by case_decide.
Qed.

End Optimize.

(** C5. When the tool run returns a nonzero status, [doOptimize] throws
    the one [runtime_error], whatever the run has left in [result]: no
    text is returned. *)
Theorem doOptimize_hard_error `{Tooling}
    (this : Optimizer) (cppFile : string) (ret : Z) (result : string) :
  ClangTool_run (createCompilationDatabaseFromCommandLine (cmdLineOptions this))
    [cppFile] (mkFactory "" (macrosToKeep this)) = Returns (ret, result) →
  ret ≠ 0%Z →
  (doOptimize this cppFile).1 = Throws (runtime_error "Compilation error").
Proof.
  intros Hrun Hret. unfold doOptimize. rewrite Hrun. by rewrite decide_True.
Qed.

Lemma doOptimize_hard_error_witness :
  (@doOptimize toy_tooling (new_Optimizer [] []) "bad.cpp").1
  = Throws (runtime_error "Compilation error").
Proof.
  apply (@doOptimize_hard_error toy_tooling (new_Optimizer [] []) "bad.cpp"
           1%Z "int main(){return 0;}"); [reflexivity|lia].
Defined.

(** ** The keep-list *)

Section Kept_text.







End Kept_text.





(** ** The definitions at work *)

(** A cycle 1 → 2 → 1, a self-loop on 3, and an island 7 → 8 that no entry
    point reaches. *)
Example reach_cyclic_graph :
  reachability_phase id [1%N]
    (list_to_map [(1%N, {[2%N; 3%N]}); (2%N, {[1%N]}); (3%N, {[3%N; 4%N]});
                  (7%N, {[8%N]})])
  = Some {[1%N; 2%N; 3%N; 4%N]}.
Proof. vm_compute. reflexivity. Qed.

(** Overlapping delete ranges remove a region once. *)
Example apply_overlapping_deletes :
  apply_edits [Delete 0 5; Delete 3 8] "0123456789" = "89".
Proof. reflexivity. Qed.

(** The unused function goes, [main] stays. *)
Example doOptimize_removes_unused :
  (@doOptimize toy_tooling (new_Optimizer [] []) "a.cpp").1
  = Returns "int main(){return 0;}".
Proof. vm_compute. reflexivity. Qed.

(** Forcing a malformed template with suppression off on entry: the error
    the parser reports does not reach the client. *)
Example forced_error_dropped :
  delivered
    (@HandleTranslationUnit toy
       (@mkWorld toy false [] (mkToyTree (mkSourceInfo ∅ [2%N] [3%N]) [])
          (one_buffer "int main(){}") new_SmartRewriter
          (new_RemoveInactivePreprocessorBlocks ∅) "" [])).2
  = [].
Proof. vm_compute. reflexivity. Qed.

(** * Further properties of the code *)

(** ** The worklist, continued *)

Section Worklist_more.

Variable getCanonicalDecl : N → N.

(** The loop of the source, run for [iteration_bound] iterations, ends in a
    state that satisfies the invariants and has an empty queue. *)
Lemma while_loop_result declsToKeep u :
  ∃ st tr,
    while_loop (iteration_bound getCanonicalDecl declsToKeep u)
      (init getCanonicalDecl declsToKeep u) = Some st
    ∧ run (init getCanonicalDecl declsToKeep u) tr st
    ∧ queue st = ∅
    ∧ inv u (seed_queue getCanonicalDecl declsToKeep) st.
Proof.
  destruct (while_loop_enough _ _ _ (bounded_init getCanonicalDecl declsToKeep u)
              (measure_init getCanonicalDecl declsToKeep u))
    as (st & tr & Hw & Hr & Hq).
  exists st, tr. split; [done|]. split; [done|]. split; [done|].
  apply (inv_run _ _ _ _ _ Hr), inv_start.
Qed.

Lemma compute_used_spec declsToKeep u d :
  d ∈ compute_used getCanonicalDecl declsToKeep u
  ↔ Reachable u (seed_queue getCanonicalDecl declsToKeep) d.
Proof.
  destruct (while_loop_result declsToKeep u) as (st & tr & Hw & _ & Hq & Hi).
  unfold compute_used, reachability_phase. rewrite Hw. simpl.
  by apply inv_final.
Qed.

End Worklist_more.

Section Reachable_facts.

Lemma Reachable_mono u u' (entry entry' : gset N) d :
  (∀ x, x ∈ entry → x ∈ entry') →
  (∀ a b, edge u a b → edge u' a b) →
  Reachable u entry d → Reachable u' entry' d.
Proof.
  intros He Hu (a & Ha & Hp). exists a. split; [by apply He|].
  eapply rtc_subrel; [|exact Hp]. exact Hu.
Qed.

(** A set that contains the entry points and is closed under edges contains
    everything reachable. *)
Lemma Reachable_closed u (entry X : gset N) d :
  (∀ x, x ∈ entry → x ∈ X) →
  (∀ a b, a ∈ X → edge u a b → b ∈ X) →
  Reachable u entry d → d ∈ X.
Proof.
  intros He Hc (a & Ha & Hp). apply He in Ha.
  induction Hp as [|a b c Hab _ IH]; [done|]. eauto.
Qed.

End Reachable_facts.

Lemma compute_used_closed
    (getCanonicalDecl : N → N) (declsToKeep : list N) (u : gmap N (gset N)) a b :
  a ∈ compute_used getCanonicalDecl declsToKeep u → edge u a b →
  b ∈ compute_used getCanonicalDecl declsToKeep u.
Proof.
  intros Ha Hab. apply compute_used_spec. apply compute_used_spec in Ha.
  by eapply Reachable_edge.
Qed.

(** The set [used] that [HandleTranslationUnit] hands to the
    [OptimizerVisitor] is the set of declarations reachable from the
    canonical declarations of [declsToKeep]: the fallback of [compute_used]
    is never taken. *)
Lemma compute_used_is_reachable
    (getCanonicalDecl : N → N) (declsToKeep : list N) (u : gmap N (gset N)) (d : N) :
  d ∈ compute_used getCanonicalDecl declsToKeep u
  ↔ Reachable u (list_to_set (getCanonicalDecl <$> declsToKeep)) d.
Proof. rewrite <- seed_queue_eq. apply compute_used_spec. Qed.

(** X1. Nothing a kept declaration needs is dropped: the canonical
    declaration of every entry of [declsToKeep] is used, and whatever a used
    declaration uses is used as well. *)
Theorem used_keeps_entries_and_dependencies
    (getCanonicalDecl : N → N) (declsToKeep : list N) (u : gmap N (gset N)) :
  (∀ decl, decl ∈ declsToKeep →
     getCanonicalDecl decl ∈ compute_used getCanonicalDecl declsToKeep u)
  ∧ (∀ a s b, a ∈ compute_used getCanonicalDecl declsToKeep u →
       u !! a = Some s → b ∈ s →
       b ∈ compute_used getCanonicalDecl declsToKeep u).
Proof.
  split.
  - intros decl Hd. apply compute_used_spec, Reachable_entry.
    apply elem_of_seed_queue. eauto.
  - intros a s b Ha Hs Hb. eapply compute_used_closed; [exact Ha|]. by exists s.
Qed.

(** X2. Keeping more declarations, or adding dependency edges, never
    shrinks the used set. *)
Theorem compute_used_mono
    (getCanonicalDecl : N → N) (declsToKeep declsToKeep' : list N)
    (u u' : gmap N (gset N)) :
  (∀ decl, decl ∈ declsToKeep → decl ∈ declsToKeep') →
  (∀ a b, edge u a b → edge u' a b) →
  compute_used getCanonicalDecl declsToKeep u
  ⊆ compute_used getCanonicalDecl declsToKeep' u'.
Proof.
  intros Hl Hu d Hd. apply compute_used_spec. apply compute_used_spec in Hd.
  eapply Reachable_mono; [|exact Hu|exact Hd].
  intros x Hx. apply elem_of_seed_queue in Hx as (decl & Hin & ->).
  apply elem_of_seed_queue. eauto.
Qed.

Lemma compute_used_mono_witness :
  compute_used id [2%N] {[2%N := {[1%N]}]}
  ⊆ compute_used id [3%N; 2%N] {[2%N := {[1%N]}]}.
Proof.
  apply (compute_used_mono id [2%N] [3%N; 2%N] {[2%N := {[1%N]}]} {[2%N := {[1%N]}]}).
  - intros decl Hd. apply list_elem_of_singleton in Hd as ->.
    apply list_elem_of_further, list_elem_of_here.
  - intros a b Hab. exact Hab.
Defined.

(** X3. The used set is empty exactly when [declsToKeep] is: with nothing
    to keep the loop body never runs, and a single entry already makes the
    set non-empty. *)
Theorem compute_used_empty_iff
    (getCanonicalDecl : N → N) (declsToKeep : list N) (u : gmap N (gset N)) :
  compute_used getCanonicalDecl declsToKeep u = ∅ ↔ declsToKeep = [].
Proof.
  split.
  - intros He. destruct declsToKeep as [|decl l]; [done|].
    assert (getCanonicalDecl decl ∈ compute_used getCanonicalDecl (decl :: l) u) as Hin.
    { apply compute_used_spec, Reachable_entry, elem_of_seed_queue.
      exists decl. split; [apply list_elem_of_here|done]. }
    rewrite He in Hin. by apply not_elem_of_empty in Hin.
  - intros ->. apply set_eq. intros d. rewrite compute_used_spec.
    split; [|by intros ?%not_elem_of_empty].
    intros (a & Ha & _). by apply not_elem_of_empty in Ha.
Qed.

(** X4. Starting the loop again from its own result changes nothing: the
    used set is a fixed point of the search. *)
Theorem compute_used_fixed_point
    (getCanonicalDecl : N → N) (declsToKeep : list N) (u : gmap N (gset N)) :
  compute_used id (elements (compute_used getCanonicalDecl declsToKeep u)) u
  = compute_used getCanonicalDecl declsToKeep u.
Proof.
  apply set_eq. intros d. rewrite (compute_used_spec id). split.
  - apply Reachable_closed.
    + intros x Hx. apply elem_of_seed_queue in Hx as (y & Hy & ->).
      by apply elem_of_elements in Hy.
    + intros a b. apply compute_used_closed.
  - intros Hd. apply Reachable_entry, elem_of_seed_queue.
    exists d. split; [by apply elem_of_elements|done].
Qed.

Section Linear_bound.

Lemma index_uses_fst u d : (index_uses u d).1 = uses_of u d.
Proof. unfold index_uses, uses_of. by destruct (u !! d). Qed.

Lemma uses_of_index_uses u d k : uses_of (index_uses u d).2 k = uses_of u k.
Proof.
  unfold index_uses, uses_of. destruct (u !! d) eqn:E; simpl; [done|].
  destruct (decide (k = d)) as [->|Hne].
  - by rewrite lookup_insert_eq, E.
  - by rewrite lookup_insert_ne.
Qed.

Lemma uses_of_loop_body st d k :
  uses_of (srcInfo_uses (loop_body st d)) k = uses_of (srcInfo_uses st) k.
Proof.
  destruct (decide (d ∈ used st)) as [Hd|Hd].
  - by rewrite loop_body_seen.
  - rewrite loop_body_new by done. simpl. apply uses_of_index_uses.
Qed.

Lemma uses_of_run st tr st' k :
  run st tr st' → uses_of (srcInfo_uses st') k = uses_of (srcInfo_uses st) k.
Proof.
  induction 1 as [|st d tr st' _ _ IH]; [done|].
  by rewrite IH, uses_of_loop_body.
Qed.

(** Every pop takes an element out of the queue, and elements come in only
    with the successors of a declaration new to [used]. *)
Lemma run_pops u0 st tr st' :
  run st tr st' →
  (∀ k, uses_of (srcInfo_uses st) k = uses_of u0 k) →
  length tr + size (queue st')
  ≤ size (queue st) + sum_list_with (λ d, size (uses_of u0 d)) (expanded tr).
Proof.
  induction 1 as [|st d tr st' Hq _ IH]; intros Hu; simpl; [lia|].
  assert (size (queue st ∖ {[d]}) + 1 = size (queue st)) as Hsz.
  { rewrite (size_difference (queue st) {[d]}), size_singleton
      by (by apply singleton_subseteq_l).
    assert (size ({[d]} : gset N) ≤ size (queue st)) as Hle
      by (by apply subseteq_size, singleton_subseteq_l).
    rewrite size_singleton in Hle. lia. }
  rewrite expanded_cons.
  assert (∀ k, uses_of (srcInfo_uses (loop_body st d)) k = uses_of u0 k) as Hu'
    by (intros k; by rewrite uses_of_loop_body).
  specialize (IH Hu'). case_bool_decide as Hd.
  - rewrite loop_body_new in IH by done. simpl in IH.
    rewrite index_uses_fst, Hu in IH. simpl.
    pose proof (size_union_alt (queue st ∖ {[d]}) (uses_of u0 d)) as Hun.
    assert (size (uses_of u0 d ∖ (queue st ∖ {[d]})) ≤ size (uses_of u0 d))
      by (apply subseteq_size, subseteq_difference_l; done).
    lia.
  - rewrite loop_body_seen in IH by done. simpl in IH. lia.
Qed.

Lemma sum_uses_NoDup u (l : list N) :
  NoDup l → sum_list_with (λ d, size (uses_of u d)) l ≤ edge_count u.
Proof.
  intros Hnd. unfold edge_count.
  assert (sum_list_with (λ d, size (uses_of u d)) l
          = sum_list_with (λ d, size (uses_of u d)) (filter (λ d, d ∈ dom u) l)) as ->.
  { clear Hnd. induction l as [|x l IH]; [done|].
    rewrite filter_cons. case_decide as Hx; simpl; rewrite IH; [done|].
    apply not_elem_of_dom in Hx.
    assert (size (uses_of u x) = 0) as ->; [|done].
    unfold uses_of. rewrite Hx. apply size_empty. }
  assert (filter (λ d, d ∈ dom u) l ⊆+ elements (dom u)) as Hsub.
  { apply NoDup_submseteq; [by apply NoDup_filter|].
    intros x Hx. apply list_elem_of_filter in Hx as [Hx _].
    by apply elem_of_elements. }
  apply submseteq_Permutation in Hsub as (k & ->).
  rewrite sum_list_with_app. lia.
Qed.

Lemma size_seed_queue getCanonicalDecl declsToKeep :
  size (seed_queue getCanonicalDecl declsToKeep) ≤ length declsToKeep.
Proof.
  rewrite seed_queue_eq. induction declsToKeep as [|x l IH].
  - by rewrite fmap_nil, list_to_set_nil, size_empty.
  - rewrite fmap_cons, list_to_set_cons, size_union_alt, size_singleton. simpl.
    assert (size (list_to_set (getCanonicalDecl <$> l) ∖ {[getCanonicalDecl x]} : gset N)
            ≤ size (list_to_set (getCanonicalDecl <$> l) : gset N))
      by (apply subseteq_size, subseteq_difference_l; done).
    lia.
Qed.

(** A bound on the length of every run is fuel enough for the loop. *)
Lemma while_loop_of_bound n st :
  (∀ tr st', run st tr st' → length tr ≤ n) →
  ∃ st', while_loop n st = Some st' ∧ queue st' = ∅.
Proof.
  revert st. induction n as [|n IH]; intros st Hb; simpl.
  - destruct (set_begin (queue st)) as [d|] eqn:E.
    + apply set_begin_Some in E.
      specialize (Hb _ _ (run_pop st d [] _ E (run_done _))). simpl in Hb. lia.
    + apply set_begin_None in E. eauto.
  - destruct (set_begin (queue st)) as [d|] eqn:E.
    + apply set_begin_Some in E. apply IH. intros tr st' Hr.
      specialize (Hb _ _ (run_pop st d tr st' E Hr)). simpl in Hb. lia.
    + apply set_begin_None in E. eauto.
Qed.

End Linear_bound.

(** X5. The loop is linear in the size of the graph: whatever the pop
    order, it makes at most one iteration per entry of [declsToKeep] and per
    dependency edge, and the loop of the source given that many iterations
    ends with an empty queue. *)
Theorem worklist_linear
    (getCanonicalDecl : N → N) (declsToKeep : list N) (u : gmap N (gset N)) :
  (∀ tr st, run (init getCanonicalDecl declsToKeep u) tr st →
     length tr ≤ length declsToKeep + edge_count u)
  ∧ ∃ st, while_loop (length declsToKeep + edge_count u)
            (init getCanonicalDecl declsToKeep u) = Some st
          ∧ queue st = ∅.
Proof.
  assert (∀ tr st, run (init getCanonicalDecl declsToKeep u) tr st →
            length tr ≤ length declsToKeep + edge_count u) as Hb.
  { intros tr st Hr.
    pose proof (run_pops u _ _ _ Hr (λ k, eq_refl)) as Hp. simpl in Hp.
    pose proof (sum_uses_NoDup u _ (expanded_NoDup _ _ _ Hr)).
    pose proof (size_seed_queue getCanonicalDecl declsToKeep). lia. }
  split; [exact Hb|]. by apply while_loop_of_bound.
Qed.

Section Uses_after.

Variable u0 : gmap N (gset N).

Lemma uses_grown_loop_body st d :
  uses_grown u0 st → uses_grown u0 (loop_body st d).
Proof.
  intros [Hkeep Hdom]. destruct (decide (d ∈ used st)) as [Hd|Hd].
  - by rewrite loop_body_seen.
  - rewrite loop_body_new by done. unfold uses_grown, index_uses. simpl.
    destruct (srcInfo_uses st !! d) as [s|] eqn:E; simpl.
    + split; [done|]. rewrite Hdom.
      assert (d ∈ dom (srcInfo_uses st)) as Hin by (apply elem_of_dom; eauto).
      rewrite Hdom in Hin. set_solver.
    + split.
      * intros k s Hk. rewrite lookup_insert_ne; [by apply Hkeep|].
        intros <-. apply Hkeep in Hk. congruence.
      * rewrite dom_insert_L, Hdom. set_solver.
Qed.

Lemma uses_grown_run st tr st' :
  run st tr st' → uses_grown u0 st → uses_grown u0 st'.
Proof. induction 1; [done|]. intros Hg. by apply IHrun, uses_grown_loop_body. Qed.

End Uses_after.

(** X6. The loop never changes a dependency edge, but it does grow
    [srcInfo.uses]: reading [uses[decl]] for a used declaration without an
    entry inserts an empty one. When the loop is over the keys of the map
    are the old keys and the used declarations, every old entry is as it
    was, and every new entry is empty. *)
Theorem uses_after_loop
    (getCanonicalDecl : N → N) (declsToKeep : list N) (u : gmap N (gset N)) :
  ∃ st,
    while_loop (iteration_bound getCanonicalDecl declsToKeep u)
      (init getCanonicalDecl declsToKeep u) = Some st
    ∧ dom (srcInfo_uses st) = dom u ∪ used st
    ∧ (∀ k s, u !! k = Some s → srcInfo_uses st !! k = Some s)
    ∧ (∀ k, u !! k = None → k ∈ used st → srcInfo_uses st !! k = Some ∅)
    ∧ (∀ a b, edge (srcInfo_uses st) a b ↔ edge u a b).
Proof.
  destruct (while_loop_result getCanonicalDecl declsToKeep u)
    as (st & tr & Hw & Hr & _ & Hi).
  assert (uses_grown u st) as [Hkeep Hdom].
  { apply (uses_grown_run u _ _ _ Hr). split; [done|]. simpl. set_solver. }
  exists st. split; [done|]. split; [done|]. split; [done|]. split.
  - intros k Hk Hin.
    assert (k ∈ dom (srcInfo_uses st)) as [s Hs]%elem_of_dom
      by (rewrite Hdom; set_solver).
    pose proof (uses_of_run _ _ _ k Hr) as Hu. unfold uses_of in Hu.
    simpl in Hu. rewrite Hs, Hk in Hu. simpl in Hu. by rewrite Hs, Hu.
  - apply (inv_edges _ _ _ Hi).
Qed.

(** ** [getResult], the constructor and [doOptimize], continued *)

(** X7. Whatever [getResult] returns, other than the string
    "Inliner error", is text that exists: the rewrite buffer of the main
    file when there is one, else the main file's own valid buffer. *)
Theorem getResult_is_text (sourceManager : SourceManager) (smartRewriter : SmartRewriter) :
  getResult sourceManager smartRewriter ≠ "Inliner error" →
  getRewriteBufferFor smartRewriter (getMainFileID sourceManager)
    = Some (getResult sourceManager smartRewriter)
  ∨ (getRewriteBufferFor smartRewriter (getMainFileID sourceManager) = None
     ∧ getBuffer sourceManager (getMainFileID sourceManager)
       = (Some (getResult sourceManager smartRewriter), false)).
Proof.
  unfold getResult.
  destruct (getRewriteBufferFor smartRewriter (getMainFileID sourceManager))
    as [rewriteBuf|]; [by left|].
  destruct (getBuffer sourceManager (getMainFileID sourceManager))
    as [[text|] [|]]; simpl; intros Hne; try done.
  by right.
Qed.

Lemma getResult_is_text_witness :
  getRewriteBufferFor new_SmartRewriter (getMainFileID (one_buffer "int main(){}"))
    = Some (getResult (one_buffer "int main(){}") new_SmartRewriter)
  ∨ (getRewriteBufferFor new_SmartRewriter (getMainFileID (one_buffer "int main(){}")) = None
     ∧ getBuffer (one_buffer "int main(){}") (getMainFileID (one_buffer "int main(){}"))
       = (Some (getResult (one_buffer "int main(){}") new_SmartRewriter), false)).
Proof.
  apply (getResult_is_text (one_buffer "int main(){}") new_SmartRewriter).
  vm_compute. discriminate.
Defined.

(** X8. The constructor keeps the command line as given and the keep-list
    as a set: two [Optimizer]s are equal exactly when their command lines
    are and their keep-list vectors hold the same names, in whatever order
    and however often. *)
Theorem new_Optimizer_eq_iff (opts opts' ks ks' : list string) :
  new_Optimizer opts ks = new_Optimizer opts' ks'
  ↔ opts = opts' ∧ ∀ name, name ∈ ks ↔ name ∈ ks'.
Proof.
  unfold new_Optimizer. split.
  - intros [= -> Hk]. split; [done|]. intros name.
    by rewrite <- !(elem_of_list_to_set (C:=gset string)), Hk.
  - intros [-> Hk]. f_equal. apply set_eq. intros name.
    by rewrite !elem_of_list_to_set.
Qed.


(** X9. [doOptimize] returns text exactly when the tool run, on the one
    file and with a factory whose [result] starts empty, ends with status 0;
    the text is then what the run left in [result]. *)
Theorem doOptimize_returns_iff `{Tooling}
    (this : Optimizer) (cppFile : string) (text : string) :
  (doOptimize this cppFile).1 = Returns text
  ↔ ClangTool_run (createCompilationDatabaseFromCommandLine (cmdLineOptions this))
      [cppFile] (factory_of this) = Returns (0%Z, text).
Proof.
  unfold doOptimize, factory_of.
  destruct (ClangTool_run _ _ _) as [[ret r]|e]; simpl; [|done].
  case_decide as Hret; simpl.
  - split; [done|]. intros [= -> _]. done.
  - subst ret. split; by intros [= ->].
Qed.

(** X10. [doOptimize] fails in two ways only: with the one error it
    raises itself, or with an exception that escaped the tool run, passed on
    as it is. *)
Theorem doOptimize_throws_only `{Tooling}
    (this : Optimizer) (cppFile : string) (e : exception) :
  (doOptimize this cppFile).1 = Throws e →
  e = runtime_error "Compilation error"
  ∨ ClangTool_run (createCompilationDatabaseFromCommandLine (cmdLineOptions this))
      [cppFile] (factory_of this) = Throws e.
Proof.
  unfold doOptimize, factory_of.
  destruct (ClangTool_run _ _ _) as [[ret r]|e']; simpl.
  - case_decide; simpl; [|done]. intros [= <-]. by left.
  - intros [= <-]. by right.
Qed.

Lemma doOptimize_throws_only_witness :
  runtime_error "Compilation error" = runtime_error "Compilation error"
  ∨ @ClangTool_run toy_tooling
      (@createCompilationDatabaseFromCommandLine toy_tooling
         (cmdLineOptions (new_Optimizer [] [])))
      ["bad.cpp"] (factory_of (new_Optimizer [] []))
    = Throws (runtime_error "Compilation error").
Proof.
  apply (@doOptimize_throws_only toy_tooling (new_Optimizer [] []) "bad.cpp").
  reflexivity.
Defined.

(** X12. The keep-list reaches the callbacks unchanged. For an [Optimizer]
    built from the vector [ks], the action the factory creates, asked for a
    consumer on a compiler that has a source manager, constructs a rewriter
    with nothing scheduled and callbacks whose keep-list holds exactly the
    names of [ks]; these callbacks are the ones it registers with the
    preprocessor, after those already registered. *)
Theorem keep_list_reaches_callbacks
    (opts ks : list string) (compiler : CompilerInstance) :
  hasSourceManager compiler = true →
  ∃ consumer compiler',
    CreateASTConsumer
      (action_macrosToKeep (create (factory_of (new_Optimizer opts ks)))) compiler
    = (Returns consumer, compiler',
       [NewSmartRewriter; NewRemoveInactivePreprocessorBlocks;
        NewOptimizerConsumer; AddPPCallbacks])
    ∧ registeredPPCallbacks compiler'
      = registeredPPCallbacks compiler ++ [consumer_ppCallbacks consumer]
    ∧ (∀ name, name ∈ pp_macrosToKeep (consumer_ppCallbacks consumer) ↔ name ∈ ks)
    ∧ scheduled (consumer_smartRewriter consumer) = []
    ∧ consumer_sourceManager consumer = getSourceManager compiler.
Proof.
  intros Hsm. unfold CreateASTConsumer. rewrite Hsm. simpl.
  eexists _, _. split; [done|]. simpl. split; [done|]. split; [|done].
  intros name. apply elem_of_list_to_set.
Qed.

Lemma keep_list_reaches_callbacks_witness :
  ∃ consumer compiler',
    CreateASTConsumer
      (action_macrosToKeep (create (factory_of (new_Optimizer [] ["FEATURE"]))))
      (mkCompilerInstance true no_buffer [])
    = (Returns consumer, compiler',
       [NewSmartRewriter; NewRemoveInactivePreprocessorBlocks;
        NewOptimizerConsumer; AddPPCallbacks])
    ∧ registeredPPCallbacks compiler'
      = registeredPPCallbacks (mkCompilerInstance true no_buffer [])
          ++ [consumer_ppCallbacks consumer]
    ∧ (∀ name, name ∈ pp_macrosToKeep (consumer_ppCallbacks consumer)
               ↔ name ∈ ["FEATURE"])
    ∧ scheduled (consumer_smartRewriter consumer) = []
    ∧ consumer_sourceManager consumer
      = getSourceManager (mkCompilerInstance true no_buffer []).
Proof.
  apply (keep_list_reaches_callbacks [] ["FEATURE"]
           (mkCompilerInstance true no_buffer [])).
  reflexivity.
Defined.
